(** * check_readme_syntax: a shallow embedding of scripts/check_readme_syntax.py

    The script reads README.md, walks its lines twice, counts one
    substring in the raw text, collects up to three diagnostics and
    prints them.  Everything after [read_text] is a function of the text
    alone; it is embedded here as such, with Python's string primitives
    ([splitlines], [lstrip], [startswith], [split], [count]) written out
    over sequences of Unicode code points. *)

From Stdlib Require Import String Ascii List NArith Arith Bool DecimalNat Lia.
Import ListNotations.

(** ** Python strings *)

(** A Python [str] is a finite sequence of code points. *)
Definition codepoint := N.
Definition str := list codepoint.

(** ASCII literals of the source, code point by code point. *)
Definition lit (s : string) : str := map N_of_ascii (list_ascii_of_string s).

Definition backtick : codepoint := 96%N.
Definition backslash : codepoint := 92%N.
Definition LF : codepoint := 10%N.
Definition CR : codepoint := 13%N.
Definition SP : codepoint := 32%N.
Definition EM_DASH : codepoint := 8212%N.

Fixpoint str_eqb (a b : str) : bool :=
  match a, b with
  | [], [] => true
  | x :: a', y :: b' => N.eqb x y && str_eqb a' b'
  | _, _ => false
  end.

(** [str.isspace] on one code point: the characters CPython's
    [_PyUnicode_IsWhitespace] accepts. *)
Definition isspace (c : codepoint) : bool :=
  ((9 <=? c) && (c <=? 13) || (28 <=? c) && (c <=? 32)
   || (c =? 133) || (c =? 160) || (c =? 5760)
   || (8192 <=? c) && (c <=? 8202)
   || (c =? 8232) || (c =? 8233) || (c =? 8239) || (c =? 8287)
   || (c =? 12288))%N.

(** The line boundaries of [str.splitlines]. *)
Definition is_linebreak (c : codepoint) : bool :=
  ((10 <=? c) && (c <=? 13) || (28 <=? c) && (c <=? 30)
   || (c =? 133) || (c =? 8232) || (c =? 8233))%N.

(** [text.splitlines()]: ends of lines are dropped, CR LF is one
    boundary, and no empty last line is produced.  [cur] holds the
    current line, last character first. *)
Fixpoint splitlines_from (cur : str) (t : str) : list str :=
  match t with
  | [] => match cur with [] => [] | _ => [rev cur] end
  | c :: t' =>
      if is_linebreak c then
        rev cur ::
          (if (c =? CR)%N then
             match t' with
             | d :: t'' =>
                 if (d =? LF)%N then splitlines_from [] t''
                 else splitlines_from [] t'
             | [] => splitlines_from [] t'
             end
           else splitlines_from [] t')
      else splitlines_from (c :: cur) t'
  end.

Definition splitlines (t : str) : list str := splitlines_from [] t.

(** [line.lstrip()] *)
Fixpoint lstrip (s : str) : str :=
  match s with
  | c :: s' => if isspace c then lstrip s' else s
  | [] => []
  end.

(** [s.startswith(p)] *)
Fixpoint startswith (s p : str) {struct p} : bool :=
  match p, s with
  | [], _ => true
  | x :: p', c :: s' => N.eqb c x && startswith s' p'
  | _ :: _, [] => false
  end.

(** [s.split()]: the maximal runs of non-whitespace characters. *)
Fixpoint split_from (cur : str) (s : str) : list str :=
  match s with
  | [] => match cur with [] => [] | _ => [rev cur] end
  | c :: s' =>
      if isspace c then
        match cur with
        | [] => split_from [] s'
        | _ => rev cur :: split_from [] s'
        end
      else split_from (c :: cur) s'
  end.

Definition split (s : str) : list str := split_from [] s.

(** [t.count(sub)]: occurrences of [sub] found from left to right, the
    search resuming after the end of each one. [skip] characters of the
    occurrence just found are still to be passed over. *)
Fixpoint count_from (sub : str) (skip : nat) (t : str) : nat :=
  match t with
  | [] => 0
  | _ :: t' =>
      match skip with
      | S k => count_from sub k t'
      | O =>
          if startswith t sub
          then S (count_from sub (length sub - 1) t')
          else count_from sub 0 t'
      end
  end.

Definition count (t sub : str) : nat :=
  match sub with
  | [] => S (length t)
  | _ => count_from sub 0 t
  end.

(** [str(n)] for a non-negative integer, as an f-string field renders it. *)
Fixpoint digits (d : Decimal.uint) : str :=
  match d with
  | Decimal.Nil => []
  | Decimal.D0 d => 48%N :: digits d
  | Decimal.D1 d => 49%N :: digits d
  | Decimal.D2 d => 50%N :: digits d
  | Decimal.D3 d => 51%N :: digits d
  | Decimal.D4 d => 52%N :: digits d
  | Decimal.D5 d => 53%N :: digits d
  | Decimal.D6 d => 54%N :: digits d
  | Decimal.D7 d => 55%N :: digits d
  | Decimal.D8 d => 56%N :: digits d
  | Decimal.D9 d => 57%N :: digits d
  end.

Definition str_of_int (n : nat) : str := digits (Nat.to_uint n).

(** ** Exceptions *)

Inductive exn := IndexError.

Inductive result (A : Type) :=
| Ok (a : A)
| Raise (e : exn).
Arguments Ok {A} a.
Arguments Raise {A} e.

Definition bind {A B} (m : result A) (k : A -> result B) : result B :=
  match m with
  | Ok a => k a
  | Raise e => Raise e
  end.

Notation "x <- m ;; k" := (bind m (fun x => k))
  (at level 61, m at next level, right associativity).

(** [l[0]] *)
Definition getitem0 (l : list str) : result str :=
  match l with
  | x :: _ => Ok x
  | [] => Raise IndexError
  end.

(** [for line in lines: body], the loop variables threaded as [st]. *)
Fixpoint for_each {S : Type} (body : S -> str -> result S)
    (lines : list str) (st : S) : result S :=
  match lines with
  | [] => Ok st
  | line :: rest => st' <- body st line ;; for_each body rest st'
  end.

(** ** The script *)

Definition triple : str := lit "```".

(** Lines 6-16: the fence counter and the fence stack.  The stack is a
    Python list: its top is its last element. *)
Record fence_vars := { fence_count : nat; fence_stack : list str }.

Definition fence_body (v : fence_vars) (line : str) : result fence_vars :=
  let s := lstrip line in
  if startswith s triple then
    fence <- getitem0 (split s) ;;
    let stack :=
      match fence_stack v with
      | [] => fence_stack v ++ [fence]
      | _ =>
          if negb (str_eqb (last (fence_stack v) []) fence)
          then fence_stack v ++ [fence]
          else removelast (fence_stack v)
      end in
    Ok {| fence_count := fence_count v + 1; fence_stack := stack |}
  else Ok v.

Definition fence_pass (lines : list str) : result fence_vars :=
  for_each fence_body lines {| fence_count := 0; fence_stack := [] |}.

(** Line 18. *)
Definition escaped (text : str) : nat := count text [backslash; backtick].

(** Lines 20-34: backticks on lines outside fenced regions. *)
Record inline_vars :=
  { outside_backticks : nat; in_fence : bool; fence_curr : option str }.

Definition inline_body (v : inline_vars) (line : str) : result inline_vars :=
  let s := lstrip line in
  if startswith s triple then
    if negb (in_fence v) then
      fence <- getitem0 (split s) ;;
      Ok {| outside_backticks := outside_backticks v;
            in_fence := true; fence_curr := Some fence |}
    else
      Ok {| outside_backticks := outside_backticks v;
            in_fence := false; fence_curr := None |}
  else if negb (in_fence v) then
    Ok {| outside_backticks := outside_backticks v + count line [backtick];
          in_fence := in_fence v; fence_curr := fence_curr v |}
  else Ok v.

Definition inline_pass (lines : list str) : result inline_vars :=
  for_each inline_body lines
    {| outside_backticks := 0; in_fence := false; fence_curr := None |}.

(** Lines 36-42: the three diagnostics. *)
Definition fence_issue (n : nat) : str :=
  lit "Unbalanced fenced code blocks (found " ++ str_of_int n
    ++ lit " fence markers)".

Definition escape_issue (n : nat) : str :=
  lit "Found " ++ str_of_int n ++ lit " escaped backtick sequences (\`) "
    ++ [EM_DASH] ++ lit " consider removing backslashes".

Definition inline_issue (n : nat) : str :=
  lit "Unbalanced inline backticks outside code fences (found "
    ++ str_of_int n ++ lit " backticks)".

Definition errs (fence_count escaped outside_backticks : nat) : list str :=
  let errs := [] in
  let errs :=
    if negb (fence_count mod 2 =? 0) then errs ++ [fence_issue fence_count]
    else errs in
  let errs :=
    if 0 <? escaped then errs ++ [escape_issue escaped] else errs in
  let errs :=
    if negb (outside_backticks mod 2 =? 0)
    then errs ++ [inline_issue outside_backticks]
    else errs in
  errs.

(** The verdict the script reaches at line 42: its issue list, and
    whether the test [if errs] of line 44 fails. *)
Record verdict := { passed : bool; issues : list str }.

Definition scan (text : str) : result verdict :=
  let lines := splitlines text in
  fv <- fence_pass lines ;;
  let escaped := escaped text in
  iv <- inline_pass lines ;;
  let errs := errs (fence_count fv) escaped (outside_backticks iv) in
  Ok {| passed := match errs with [] => true | _ => false end;
        issues := errs |}.

(** Lines 44-49.  [print] writes its arguments separated by one space
    and ends the line; [SystemExit(2)] ends the process with status 2,
    running off the end of the script with status 0. *)
Record process := { stdout : str; status : nat }.

Definition print (args : list str) : str :=
  match args with
  | [] => [LF]
  | a :: rest => a ++ flat_map (fun x => SP :: x) rest ++ [LF]
  end.

Definition ok_message : str :=
  lit "OK: README.md syntax looks good (fenced blocks and inline backticks balanced)".

Definition report (errs : list str) : process :=
  match errs with
  | _ :: _ =>
      {| stdout := print [lit "SYNTAX-ISSUES"]
                     ++ flat_map (fun e => print [lit "-"; e]) errs;
         status := 2 |}
  | [] => {| stdout := print [ok_message]; status := 0 |}
  end.

Definition main (text : str) : result process :=
  v <- scan text ;;
  Ok (report (issues v)).

(** The verdict that goes with an issue list. *)
Definition verdict_of (errs : list str) : verdict :=
  {| passed := match errs with [] => true | _ => false end; issues := errs |}.

(** A string that holds no line boundary. *)
Definition one_line (s : str) : bool :=
  forallb (fun c => negb (is_linebreak c)) s.

(** No two neighbours of a stack are the same token. *)
Fixpoint adjacent_distinct (l : list str) : bool :=
  match l with
  | a :: (b :: _) as rest => negb (str_eqb a b) && adjacent_distinct rest
  | _ => true
  end.

(** A token as the fence loop pushes them: it begins with the triple
    marker and holds no whitespace. *)
Definition fence_token (tok : str) : bool :=
  startswith tok triple && forallb (fun c => negb (isspace c)) tok.

(** What the fence loop keeps true of its counter and its stack. *)
Definition fence_invariant (v : fence_vars) : Prop :=
  List.length (fence_stack v) <= fence_count v
  /\ Nat.even (List.length (fence_stack v)) = Nat.even (fence_count v)
  /\ adjacent_distinct (fence_stack v) = true
  /\ Forall (fun tok => fence_token tok = true) (fence_stack v).

(** What the inline loop keeps true of its flag and its current
    token. *)
Definition inline_invariant (v : inline_vars) : Prop :=
  match fence_curr v with
  | Some tok => in_fence v = true /\ fence_token tok = true
  | None => in_fence v = false
  end.

(** ** The quantities of the specification

    Stated over the document rather than over the loops, to be compared
    with what the loops compute. *)
Module Spec.

(** A fence-marker line: after stripping leading whitespace it begins
    with the triple marker. *)
Definition is_fence_line (line : str) : bool :=
  startswith (lstrip line) triple.

(** The number of fence-marker lines. *)
Definition fence_marker_lines (lines : list str) : nat :=
  List.length (filter is_fence_line lines).

(** The number of positions of the raw text at which an escape
    character is immediately followed by an inline marker. *)
Fixpoint escape_occurrences (text : str) : nat :=
  match text with
  | a :: (b :: _) as rest =>
      (if (a =? backslash)%N && (b =? backtick)%N then 1 else 0)
      + escape_occurrences rest
  | _ => 0
  end.

(** The number of inline marker characters of one line. *)
Definition inline_markers (line : str) : nat :=
  List.length (filter (N.eqb backtick) line).

(** Inline markers on lines that are neither fence-marker lines nor
    inside an open fenced region; a region is open after an odd
    number [seen] of fence-marker lines. *)
Fixpoint outside_inline_from (seen : nat) (lines : list str) : nat :=
  match lines with
  | [] => 0
  | l :: rest =>
      if is_fence_line l then outside_inline_from (S seen) rest
      else (if Nat.even seen then inline_markers l else 0)
           + outside_inline_from seen rest
  end.

Definition outside_fence_inline_count (lines : list str) : nat :=
  outside_inline_from 0 lines.

(** The first whitespace-delimited field of a string. *)
Fixpoint first_field (s : str) : str :=
  match s with
  | c :: s' => if isspace c then [] else c :: first_field s'
  | [] => []
  end.

End Spec.

(** ** Strings *)

Lemma str_eqb_eq (a b : str) : str_eqb a b = true <-> a = b.
Proof.
  revert b; induction a as [|x a IH]; intros [|y b]; simpl;
    try (split; [discriminate | congruence]); try tauto.
  rewrite andb_true_iff, N.eqb_eq, IH. split.
  - intros [-> ->]; reflexivity.
  - intros H; injection H; auto.
Qed.

Lemma str_eqb_refl (a : str) : str_eqb a a = true.
Proof. apply str_eqb_eq; reflexivity. Qed.

Lemma str_eqb_neq (a b : str) : str_eqb a b = false <-> a <> b.
Proof.
  rewrite <- str_eqb_eq. destruct (str_eqb a b); split; congruence.
Qed.

Lemma startswith_app (s p : str) :
  startswith s p = true <-> exists r, s = p ++ r.
Proof.
  revert s; induction p as [|x p IH]; intros s; simpl.
  - split; [exists s; reflexivity | reflexivity].
  - destruct s as [|c s].
    + split; [discriminate | intros [r H]; discriminate].
    + rewrite andb_true_iff, N.eqb_eq, IH. split.
      * intros [-> [r ->]]. exists r; reflexivity.
      * intros [r H]. injection H as -> ->. split; [reflexivity | eauto].
Qed.

(** Once a field has begun, [split] returns it first: the characters
    read so far, then those up to the next whitespace. *)
Lemma split_from_first (s cur : str) :
  cur <> [] ->
  exists fields, split_from cur s = (rev cur ++ Spec.first_field s) :: fields.
Proof.
  revert cur; induction s as [|c s IH]; intros cur Hcur; simpl.
  - destruct cur; [congruence|]. rewrite app_nil_r. eauto.
  - destruct (isspace c).
    + destruct cur; [congruence|]. rewrite app_nil_r. eauto.
    + destruct (IH (c :: cur)) as [fields ->]; [discriminate|].
      simpl. rewrite <- app_assoc. simpl. eauto.
Qed.

(** The token of a fence-marker line is always there: the line begins
    with a character that is not whitespace. *)
Lemma fence_token_defined (rest : str) :
  getitem0 (split (triple ++ rest)) = Ok (triple ++ Spec.first_field rest).
Proof.
  unfold split.
  change (split_from [] (triple ++ rest))
    with (split_from (rev triple) rest).
  destruct (split_from_first rest (rev triple)) as [fields ->];
    [discriminate | rewrite rev_involutive; reflexivity].
Qed.

Lemma fence_line_token (line : str) :
  Spec.is_fence_line line = true ->
  exists rest, lstrip line = triple ++ rest
    /\ getitem0 (split (lstrip line)) = Ok (triple ++ Spec.first_field rest).
Proof.
  unfold Spec.is_fence_line. intros H.
  apply startswith_app in H. destruct H as [rest H].
  exists rest. split; [assumption|]. rewrite H. apply fence_token_defined.
Qed.

(** ** Counting *)

Lemma count_char (c : codepoint) (t : str) :
  count t [c] = List.length (filter (N.eqb c) t).
Proof.
  unfold count. induction t as [|x t IH]; [reflexivity|].
  cbn [count_from startswith filter List.length Nat.sub].
  rewrite andb_true_r, N.eqb_sym.
  destruct (N.eqb c x); cbn [List.length]; rewrite IH; reflexivity.
Qed.

Lemma count_backtick (line : str) :
  count line [backtick] = Spec.inline_markers line.
Proof. apply count_char. Qed.

Lemma inline_markers_app (a b : str) :
  Spec.inline_markers (a ++ b) = Spec.inline_markers a + Spec.inline_markers b.
Proof.
  unfold Spec.inline_markers. rewrite filter_app, length_app. reflexivity.
Qed.

(** The two characters of the escaped sequence differ, so no two of its
    occurrences overlap and [count] finds every one. *)
Lemma escaped_occurrences (text : str) :
  escaped text = Spec.escape_occurrences text.
Proof.
  unfold escaped, count.
  enough (H : forall t,
             count_from [backslash; backtick] 0 t = Spec.escape_occurrences t
             /\ forall c, count_from [backslash; backtick] 0 (c :: t)
                          = Spec.escape_occurrences (c :: t))
    by apply H.
  induction t as [|b t [IHt IHc]].
  - split; [reflexivity|]. intros c.
    cbn [count_from startswith Spec.escape_occurrences].
    rewrite andb_false_r. reflexivity.
  - split; [apply IHc|]. intros c.
    change (count_from [backslash; backtick] 0 (c :: b :: t))
      with (if (c =? backslash)%N && ((b =? backtick)%N && true)
            then S (count_from [backslash; backtick] 0 t)
            else count_from [backslash; backtick] 0 (b :: t)).
    change (Spec.escape_occurrences (c :: b :: t))
      with ((if (c =? backslash)%N && (b =? backtick)%N then 1 else 0)
            + Spec.escape_occurrences (b :: t)).
    rewrite andb_true_r, IHc, IHt.
    destruct ((c =? backslash)%N && (b =? backtick)%N) eqn:E; [|reflexivity].
    apply andb_true_iff in E. destruct E as [_ Eb].
    apply N.eqb_eq in Eb. subst b.
    destruct t as [|d t]; reflexivity.
Qed.

(** ** Parity *)

Lemma mod2_even (n : nat) : (n mod 2 =? 0) = Nat.even n.
Proof.
  destruct (Nat.even n) eqn:E.
  - apply Nat.even_spec in E. destruct E as [k ->].
    apply Nat.eqb_eq. rewrite Nat.mul_comm. apply Nat.Div0.mod_mul.
  - apply Nat.eqb_neq.
    assert (O : Nat.odd n = true) by (rewrite <- Nat.negb_even, E; reflexivity).
    apply Nat.odd_spec in O. destruct O as [k ->].
    rewrite Nat.add_comm, Nat.mul_comm, Nat.Div0.mod_add. discriminate.
Qed.

Lemma mod2_odd (n : nat) : negb (n mod 2 =? 0) = Nat.odd n.
Proof. rewrite mod2_even. apply Nat.negb_even. Qed.

(** ** The two loops *)

Lemma bind_ok {A B} (a : A) (k : A -> result B) : bind (Ok a) k = k a.
Proof. reflexivity. Qed.

(** The fence loop never raises; whatever the stack holds, the counter
    advances by the number of fence-marker lines. *)
Lemma fence_loop (lines : list str) (v : fence_vars) :
  exists v', for_each fence_body lines v = Ok v'
    /\ fence_count v' = fence_count v + Spec.fence_marker_lines lines.
Proof.
  revert v; induction lines as [|line lines IH]; intros v.
  - exists v. split; [reflexivity|]. cbn. lia.
  - cbn [for_each]. unfold fence_body at 1.
    unfold Spec.fence_marker_lines. cbn [filter].
    destruct (Spec.is_fence_line line) eqn:F.
    + destruct (fence_line_token _ F) as (rest & _ & ->).
      unfold Spec.is_fence_line in F. rewrite F, !bind_ok.
      match goal with |- context [for_each _ _ ?w] =>
        destruct (IH w) as (v' & -> & Hc) end.
      exists v'. split; [reflexivity|].
      rewrite Hc. unfold Spec.fence_marker_lines. cbn. lia.
    + unfold Spec.is_fence_line in F. rewrite F, bind_ok.
      destruct (IH v) as (v' & -> & Hc). exists v'. split; [reflexivity|].
      exact Hc.
Qed.

(** The inline loop never raises either; it adds the markers of the
    lines outside fenced regions, and its flag follows the parity of the
    fence-marker lines seen. *)
Lemma inline_loop (lines : list str) (v : inline_vars) (seen : nat) :
  in_fence v = Nat.odd seen ->
  exists v', for_each inline_body lines v = Ok v'
    /\ outside_backticks v'
       = outside_backticks v + Spec.outside_inline_from seen lines
    /\ in_fence v' = Nat.odd (seen + Spec.fence_marker_lines lines).
Proof.
  revert v seen; induction lines as [|line lines IH]; intros v seen Hv.
  - exists v. cbn. rewrite !Nat.add_0_r. auto.
  - cbn [for_each Spec.outside_inline_from]. unfold inline_body at 1.
    unfold Spec.fence_marker_lines. cbn [filter].
    fold (Spec.is_fence_line line).
    destruct (Spec.is_fence_line line) eqn:F.
    + destruct (fence_line_token _ F) as (rest & _ & ->).
      assert (Hstep : forall w, in_fence w = negb (in_fence v) ->
                in_fence w = Nat.odd (S seen)).
      { intros w ->. rewrite Hv, Nat.odd_succ. apply Nat.negb_odd. }
      destruct (in_fence v) eqn:I; cbn [negb]; rewrite !bind_ok;
        match goal with |- context [for_each _ _ ?w] =>
          destruct (IH w (S seen) (Hstep w eq_refl)) as (v' & -> & Ho & Hf)
        end; exists v'; (split; [reflexivity|]); cbn [List.length];
        rewrite Ho, Hf; cbn [outside_backticks];
        (split; [reflexivity | f_equal; unfold Spec.fence_marker_lines; lia]).
    + rewrite <- (Nat.negb_odd seen), <- Hv.
      destruct (in_fence v) eqn:I; cbn [negb]; rewrite !bind_ok.
      * destruct (IH v seen) as (v' & -> & Ho & Hf); [congruence|].
        exists v'. auto.
      * match goal with |- context [for_each _ _ ?w] =>
          destruct (IH w seen) as (v' & -> & Ho & Hf) end;
          [cbn; congruence|].
        exists v'. split; [reflexivity|]. rewrite Ho, Hf.
        cbn [outside_backticks]. rewrite count_backtick.
        split; [lia | reflexivity].
Qed.

(** ** The verdict as a function of the three quantities *)

Lemma scan_verdict (text : str) :
  scan text
  = Ok (verdict_of
          (errs (Spec.fence_marker_lines (splitlines text))
                (escaped text)
                (Spec.outside_fence_inline_count (splitlines text)))).
Proof.
  unfold scan, fence_pass, inline_pass.
  destruct (fence_loop (splitlines text)
              {| fence_count := 0; fence_stack := [] |}) as (fv & -> & Hf).
  destruct (inline_loop (splitlines text)
              {| outside_backticks := 0; in_fence := false;
                 fence_curr := None |} 0 eq_refl)
    as (iv & -> & Ho & _).
  rewrite !bind_ok, Hf, Ho. reflexivity.
Qed.

Lemma errs_cases (f e o : nat) :
  errs f e o
  = (if Nat.odd f then [fence_issue f] else [])
    ++ (if 0 <? e then [escape_issue e] else [])
    ++ (if Nat.odd o then [inline_issue o] else []).
Proof.
  unfold errs. rewrite !mod2_odd.
  destruct (Nat.odd f), (0 <? e), (Nat.odd o); reflexivity.
Qed.

(** ** The diagnostics as strings *)

Lemma digits_inj (a b : Decimal.uint) : digits a = digits b -> a = b.
Proof.
  revert b; induction a; intros b H; destruct b; simpl in H;
    try discriminate; try reflexivity;
    injection H as H; f_equal; auto.
Qed.

Lemma str_of_int_inj (n m : nat) : str_of_int n = str_of_int m -> n = m.
Proof.
  intros H. apply DecimalNat.Unsigned.to_uint_inj, digits_inj, H.
Qed.

Lemma fence_issue_inj (n m : nat) : fence_issue n = fence_issue m -> n = m.
Proof.
  unfold fence_issue. intros H.
  apply app_inv_head, app_inv_tail in H. apply str_of_int_inj, H.
Qed.

Lemma escape_issue_inj (n m : nat) : escape_issue n = escape_issue m -> n = m.
Proof.
  unfold escape_issue. intros H.
  apply app_inv_head, app_inv_tail in H. apply str_of_int_inj, H.
Qed.

Lemma inline_issue_inj (n m : nat) : inline_issue n = inline_issue m -> n = m.
Proof.
  unfold inline_issue. intros H.
  apply app_inv_head, app_inv_tail in H. apply str_of_int_inj, H.
Qed.

(** Two strings that differ at position [k] are different. *)
Ltac differ_at k H :=
  apply (f_equal (fun l : str => nth k l 0%N)) in H;
  vm_compute in H; discriminate H.

Lemma fence_not_escape (n m : nat) : fence_issue n <> escape_issue m.
Proof. intros H. differ_at 0 H. Qed.

Lemma fence_not_inline (n m : nat) : fence_issue n <> inline_issue m.
Proof. intros H. differ_at 11 H. Qed.

Lemma escape_not_inline (n m : nat) : escape_issue n <> inline_issue m.
Proof. intros H. differ_at 0 H. Qed.

Ltac issue_clash :=
  match goal with
  | H : fence_issue _ = escape_issue _ |- _ => destruct (fence_not_escape _ _ H)
  | H : escape_issue _ = fence_issue _ |- _ =>
      destruct (fence_not_escape _ _ (eq_sym H))
  | H : fence_issue _ = inline_issue _ |- _ => destruct (fence_not_inline _ _ H)
  | H : inline_issue _ = fence_issue _ |- _ =>
      destruct (fence_not_inline _ _ (eq_sym H))
  | H : escape_issue _ = inline_issue _ |- _ =>
      destruct (escape_not_inline _ _ H)
  | H : inline_issue _ = escape_issue _ |- _ =>
      destruct (escape_not_inline _ _ (eq_sym H))
  end.

(** Which diagnostics an issue list holds. *)
Lemma in_when (b : bool) (x y : str) :
  In x (if b then [y] else []) <-> b = true /\ y = x.
Proof. destruct b; cbn; intuition discriminate. Qed.

Lemma in_errs_fence (f e o n : nat) :
  In (fence_issue n) (errs f e o) <-> n = f /\ Nat.odd f = true.
Proof.
  rewrite errs_cases, !in_app_iff, !in_when. split.
  - intros [[Hf H] | [[_ H] | [_ H]]]; try issue_clash.
    apply fence_issue_inj in H. auto.
  - intros [-> Hf]. auto.
Qed.

Lemma in_errs_escape (f e o n : nat) :
  In (escape_issue n) (errs f e o) <-> n = e /\ 0 < e.
Proof.
  rewrite errs_cases, !in_app_iff, !in_when, Nat.ltb_lt. split.
  - intros [[_ H] | [[He H] | [_ H]]]; try issue_clash.
    apply escape_issue_inj in H. auto.
  - intros [-> He]. auto.
Qed.

Lemma in_errs_inline (f e o n : nat) :
  In (inline_issue n) (errs f e o) <-> n = o /\ Nat.odd o = true.
Proof.
  rewrite errs_cases, !in_app_iff, !in_when. split.
  - intros [[_ H] | [[_ H] | [Ho H]]]; try issue_clash.
    apply inline_issue_inj in H. auto.
  - intros [-> Ho]. auto.
Qed.

(** No diagnostic holds a line boundary. *)
Lemma one_line_app (a b : str) :
  one_line (a ++ b) = one_line a && one_line b.
Proof. apply forallb_app. Qed.

Lemma digits_one_line (d : Decimal.uint) : one_line (digits d) = true.
Proof. induction d; simpl; auto. Qed.

Lemma errs_one_line (f e o : nat) :
  Forall (fun s => one_line s = true) (errs f e o).
Proof.
  rewrite errs_cases, !Forall_app.
  repeat split;
    match goal with |- context [if ?b then _ else _] => destruct b end;
    repeat constructor;
    unfold fence_issue, escape_issue, inline_issue, str_of_int;
    rewrite ?one_line_app, ?digits_one_line; reflexivity.
Qed.

(** A line without boundaries, ended by a line feed, is the next line
    that [splitlines] yields. *)
Lemma splitlines_from_line (l cur rest : str) :
  one_line l = true ->
  splitlines_from cur (l ++ LF :: rest)
  = (rev cur ++ l) :: splitlines_from [] rest.
Proof.
  revert cur; induction l as [|c l IH]; intros cur H.
  - cbn. rewrite app_nil_r. reflexivity.
  - cbn in H. apply andb_true_iff in H. destruct H as [Hc Hl].
    apply negb_true_iff in Hc. cbn [app splitlines_from]. rewrite Hc.
    rewrite IH by assumption. cbn [rev]. rewrite <- app_assoc. reflexivity.
Qed.

Lemma splitlines_issue_lines (es : list str) :
  Forall (fun s => one_line s = true) es ->
  splitlines (flat_map (fun e => print [lit "-"; e]) es)
  = map (fun e => lit "- " ++ e) es.
Proof.
  unfold splitlines. induction 1 as [|e es He _ IH]; [reflexivity|].
  cbn [flat_map map].
  replace (print [lit "-"; e]) with ((lit "- " ++ e) ++ [LF])
    by (unfold print; cbn; rewrite app_nil_r; reflexivity).
  rewrite <- app_assoc. cbn [app].
  change (lit "- " ++ e ++ LF :: flat_map (fun e => print [lit "-"; e]) es)
    with ((lit "- " ++ e) ++ LF :: flat_map (fun e => print [lit "-"; e]) es).
  rewrite splitlines_from_line, IH; [reflexivity|].
  rewrite one_line_app, He. reflexivity.
Qed.

(** ** Lines between two fence-marker lines *)

Lemma fence_body_other (v : fence_vars) (line : str) :
  Spec.is_fence_line line = false -> fence_body v line = Ok v.
Proof. unfold fence_body, Spec.is_fence_line. intros ->. reflexivity. Qed.

Lemma fence_body_marker (c : nat) (st : list str) (line rest : str) :
  lstrip line = triple ++ rest ->
  fence_body {| fence_count := c; fence_stack := st |} line
  = Ok {| fence_count := c + 1;
          fence_stack :=
            match st with
            | [] => st ++ [triple ++ Spec.first_field rest]
            | _ =>
                if negb (str_eqb (last st []) (triple ++ Spec.first_field rest))
                then st ++ [triple ++ Spec.first_field rest]
                else removelast st
            end |}.
Proof.
  intros H. unfold fence_body. rewrite H.
  replace (startswith (triple ++ rest) triple) with true
    by (symmetry; apply startswith_app; eauto).
  rewrite fence_token_defined. reflexivity.
Qed.

Lemma fence_loop_others (mid : list str) (v : fence_vars) :
  Forall (fun l => Spec.is_fence_line l = false) mid ->
  for_each fence_body mid v = Ok v.
Proof.
  induction 1 as [|l mid Hl _ IH]; [reflexivity|].
  cbn [for_each]. rewrite fence_body_other by assumption. exact IH.
Qed.

Lemma for_each_app {S : Type} (body : S -> str -> result S)
    (a b : list str) (st : S) :
  for_each body (a ++ b) st = (st' <- for_each body a st ;; for_each body b st').
Proof.
  revert st; induction a as [|x a IH]; intros st; [reflexivity|].
  cbn [app for_each]. destruct (body st x); [apply IH | reflexivity].
Qed.

Lemma inline_loop_inside (body : list str) (v : inline_vars) :
  in_fence v = true ->
  Forall (fun l => Spec.is_fence_line l = false) body ->
  for_each inline_body body v = Ok v.
Proof.
  intros Hv. induction 1 as [|l body Hl _ IH]; [reflexivity|].
  cbn [for_each]. unfold inline_body at 1.
  unfold Spec.is_fence_line in Hl. rewrite Hl, Hv. exact IH.
Qed.

Lemma fence_marker_lines_app (a b : list str) :
  Spec.fence_marker_lines (a ++ b)
  = Spec.fence_marker_lines a + Spec.fence_marker_lines b.
Proof.
  unfold Spec.fence_marker_lines. rewrite filter_app, length_app. reflexivity.
Qed.

Lemma fence_marker_lines_none (body : list str) :
  Forall (fun l => Spec.is_fence_line l = false) body ->
  Spec.fence_marker_lines body = 0.
Proof.
  unfold Spec.fence_marker_lines.
  induction 1 as [|l body Hl _ IH]; [reflexivity|].
  cbn [filter]. rewrite Hl. exact IH.
Qed.

Lemma outside_inline_inside (seen : nat) (body : list str) :
  Nat.even seen = false ->
  Forall (fun l => Spec.is_fence_line l = false) body ->
  Spec.outside_inline_from seen body = 0.
Proof.
  intros Hs. induction 1 as [|l body Hl _ IH]; [reflexivity|].
  cbn [Spec.outside_inline_from]. rewrite Hl, Hs, IH. reflexivity.
Qed.

Lemma outside_inline_app (a b : list str) (seen : nat) :
  Spec.outside_inline_from seen (a ++ b)
  = Spec.outside_inline_from seen a
    + Spec.outside_inline_from (seen + Spec.fence_marker_lines a) b.
Proof.
  revert seen; induction a as [|l a IH]; intros seen.
  - cbn. rewrite Nat.add_0_r. reflexivity.
  - cbn [app Spec.outside_inline_from]. unfold Spec.fence_marker_lines.
    cbn [filter]. destruct (Spec.is_fence_line l); rewrite IH;
      unfold Spec.fence_marker_lines; cbn [List.length].
    + rewrite Nat.add_succ_r. reflexivity.
    + rewrite Nat.add_assoc. reflexivity.
Qed.

Lemma passed_of_issue (errs : list str) (x : str) :
  In x errs -> passed (verdict_of errs) = false.
Proof. destruct errs; [intros [] | reflexivity]. Qed.

Lemma passed_iff_no_issue (errs : list str) :
  passed (verdict_of errs) = true <-> issues (verdict_of errs) = [].
Proof. destruct errs; cbn; split; congruence. Qed.

Lemma main_of_scan (text : str) (v : verdict) :
  scan text = Ok v -> main text = Ok (report (issues v)).
Proof. unfold main. intros ->. reflexivity. Qed.

Lemma escape_occurrences_tail (x : codepoint) (t : str) :
  Spec.escape_occurrences t <= Spec.escape_occurrences (x :: t).
Proof. destruct t; cbn [Spec.escape_occurrences]; lia. Qed.

Lemma escape_occurrences_pos (a b : str) :
  0 < Spec.escape_occurrences (a ++ [backslash; backtick] ++ b).
Proof.
  induction a as [|x a IH].
  - cbn. lia.
  - cbn [app] in *.
    eapply Nat.lt_le_trans; [exact IH | apply escape_occurrences_tail].
Qed.

Lemma scan_no_issue (text : str) :
  Nat.even (Spec.fence_marker_lines (splitlines text)) = true ->
  Spec.escape_occurrences text = 0 ->
  Nat.even (Spec.outside_fence_inline_count (splitlines text)) = true ->
  scan text = Ok {| passed := true; issues := [] |}.
Proof.
  intros Hf He Ho.
  rewrite scan_verdict, escaped_occurrences, errs_cases, He.
  rewrite <- !Nat.negb_even, Hf, Ho. reflexivity.
Qed.

(** * The properties of the specification *)

(** C1.  A document with an even number of fence-marker lines, no
    escaped marker in its raw text and an even number of inline markers
    outside fenced regions passes with an empty issue list; the script
    then prints its confirmation and ends with status 0. *)
Theorem clean_document_passes (text : str) :
  Nat.even (Spec.fence_marker_lines (splitlines text)) = true ->
  Spec.escape_occurrences text = 0 ->
  Nat.even (Spec.outside_fence_inline_count (splitlines text)) = true ->
  scan text = Ok {| passed := true; issues := [] |}
  /\ main text = Ok {| stdout := ok_message ++ [LF]; status := 0 |}.
Proof.
  intros Hf He Ho.
  assert (Hs : scan text = Ok {| passed := true; issues := [] |})
    by (apply scan_no_issue; assumption).
  split; [exact Hs|]. rewrite (main_of_scan _ _ Hs). reflexivity.
Qed.

Lemma clean_document_passes_witness :
  let text := lit "```sh" ++ [LF] ++ lit "echo `pwd" ++ [LF] ++ lit "```"
              ++ [LF] ++ lit "run `make`" in
  scan text = Ok {| passed := true; issues := [] |}
  /\ main text = Ok {| stdout := ok_message ++ [LF]; status := 0 |}.
Proof.
  intros text. apply (clean_document_passes text); reflexivity.
Defined.

(** C2.  The three checks are evaluated one after the other whatever
    the others found: the issue list is the fence issue if the fence
    count is odd, then the escape issue if an escaped marker occurs,
    then the inline issue if the outside count is odd.  A document with
    all three faults gets exactly these three issues in this order, and
    a document passes exactly when its issue list is empty. *)
Theorem issues_evaluated_exhaustively (text : str) :
  let f := Spec.fence_marker_lines (splitlines text) in
  let e := Spec.escape_occurrences text in
  let o := Spec.outside_fence_inline_count (splitlines text) in
  exists v, scan text = Ok v
    /\ issues v
       = (if Nat.odd f then [fence_issue f] else [])
         ++ (if 0 <? e then [escape_issue e] else [])
         ++ (if Nat.odd o then [inline_issue o] else [])
    /\ (passed v = true <-> issues v = [])
    /\ (Nat.odd f = true -> 0 < e -> Nat.odd o = true ->
        issues v = [fence_issue f; escape_issue e; inline_issue o]
        /\ List.length (issues v) = 3 /\ passed v = false).
Proof.
  intros f e o. eexists. split; [apply scan_verdict|].
  rewrite escaped_occurrences. fold f e o.
  split; [apply errs_cases|]. split; [apply passed_iff_no_issue|].
  intros Hf He Ho. apply Nat.ltb_lt in He.
  cbn [issues passed verdict_of]. rewrite errs_cases, Hf, He, Ho.
  auto.
Qed.

Lemma issues_evaluated_exhaustively_witness :
  let text := lit "see \`" ++ [LF] ++ lit "```" in
  exists v, scan text = Ok v
    /\ issues v = [fence_issue 1; escape_issue 1; inline_issue 1]
    /\ List.length (issues v) = 3 /\ passed v = false.
Proof.
  intros text.
  destruct (issues_evaluated_exhaustively text) as (v & Hv & _ & _ & H).
  exists v. split; [exact Hv|]. apply H; [reflexivity | | reflexivity].
  vm_compute. lia.
Defined.

(** C3.  The fence issue is in the issue list exactly when the number
    of fence-marker lines is odd, and it names that number.  The counter
    does not depend on the fence stack: started on any two stacks, the
    loop ends with the same count.  A document with one fence-marker
    line fails with the issue naming 1, as the single line "```python"
    does. *)
Theorem fence_issue_iff_odd_count (text : str) :
  let f := Spec.fence_marker_lines (splitlines text) in
  exists v, scan text = Ok v
    /\ (forall n, In (fence_issue n) (issues v) <-> n = f /\ Nat.odd f = true)
    /\ (forall c st1 st2, exists v1 v2,
          for_each fence_body (splitlines text)
            {| fence_count := c; fence_stack := st1 |} = Ok v1
          /\ for_each fence_body (splitlines text)
               {| fence_count := c; fence_stack := st2 |} = Ok v2
          /\ fence_count v1 = c + f /\ fence_count v2 = c + f)
    /\ (f = 1 -> passed v = false /\ In (fence_issue 1) (issues v))
    /\ scan (lit "```python")
       = Ok {| passed := false; issues := [fence_issue 1] |}.
Proof.
  intros f. eexists. split; [apply scan_verdict|].
  split; [intros n; apply in_errs_fence|]. split.
  - intros c st1 st2.
    destruct (fence_loop (splitlines text)
                {| fence_count := c; fence_stack := st1 |}) as (v1 & H1 & C1).
    destruct (fence_loop (splitlines text)
                {| fence_count := c; fence_stack := st2 |}) as (v2 & H2 & C2).
    exists v1, v2. auto.
  - split; [|reflexivity]. intros Hf.
    assert (Hin : In (fence_issue 1)
                    (errs f (escaped text)
                       (Spec.outside_fence_inline_count (splitlines text))))
      by (apply in_errs_fence; rewrite Hf; auto).
    split; [exact (passed_of_issue _ _ Hin) | exact Hin].
Qed.

Lemma fence_issue_iff_odd_count_witness :
  let text := lit "intro" ++ [LF] ++ lit "  ```python" ++ [LF] ++ lit "x = 1" in
  exists v, scan text = Ok v
    /\ passed v = false /\ In (fence_issue 1) (issues v).
Proof.
  intros text.
  destruct (fence_issue_iff_odd_count text) as (v & Hv & _ & _ & H & _).
  exists v. split; [exact Hv|]. apply H. reflexivity.
Defined.

(** An opening line "```python" is not popped by a later bare "```":
    the token compared with the top of the stack is the whole first
    field, tag included, so the bare line is pushed on top of the
    tagged one. *)
Lemma tagged_opener_not_popped_by_bare :
  let doc := splitlines (lit "```python" ++ [LF] ++ lit "```") in
  fence_pass doc
  = Ok {| fence_count := 2; fence_stack := [lit "```python"; lit "```"] |}
  /\ ~ (exists v, fence_pass doc = Ok v /\ fence_stack v = []).
Proof.
  intros doc. split; [reflexivity|].
  intros (v & Hv & Hs).
  change (fence_pass doc)
    with (Ok {| fence_count := 2;
                fence_stack := [lit "```python"; lit "```"] |}) in Hv.
  injection Hv as <-. discriminate Hs.
Qed.

(** What the toggle rule does with an opening line and the next
    fence-marker line.  The token pushed for a line is its first
    whitespace-delimited field: the triple run and whatever is attached
    to it.  An opening line that was pushed is popped by the next
    fence-marker line exactly when the two first fields are equal;
    otherwise both stay on the stack.  So a tag attached to the run
    keeps a bare closing run from popping the line, and a tag separated
    from the run by whitespace does not. *)
Theorem fence_identity_is_first_field
    (c : nat) (st : list str) (opener closer : str) (mid : list str)
    (r1 r2 : str) :
  lstrip opener = triple ++ r1 ->
  lstrip closer = triple ++ r2 ->
  Forall (fun l => Spec.is_fence_line l = false) mid ->
  last st [] <> triple ++ Spec.first_field r1 ->
  let tok1 := triple ++ Spec.first_field r1 in
  let tok2 := triple ++ Spec.first_field r2 in
  exists v,
    for_each fence_body (opener :: mid ++ [closer])
      {| fence_count := c; fence_stack := st |} = Ok v
    /\ fence_count v = c + 2
    /\ (tok1 = tok2 -> fence_stack v = st)
    /\ (tok1 <> tok2 -> fence_stack v = st ++ [tok1; tok2])
    /\ (r2 = [] -> (exists ch tl, r1 = ch :: tl /\ isspace ch = false) ->
        fence_stack v = st ++ [tok1; triple])
    /\ (r2 = [] -> (exists ch tl, r1 = ch :: tl /\ isspace ch = true) ->
        fence_stack v = st).
Proof.
  intros H1 H2 Hmid Htop tok1 tok2.
  assert (Hpush :
    fence_body {| fence_count := c; fence_stack := st |} opener
    = Ok {| fence_count := c + 1; fence_stack := st ++ [tok1] |}).
  { rewrite (fence_body_marker _ _ _ _ H1). fold tok1.
    destruct st as [|x st']; [reflexivity|].
    apply str_eqb_neq in Htop. fold tok1 in Htop. rewrite Htop.
    reflexivity. }
  assert (Hnext :
    fence_body {| fence_count := c + 1; fence_stack := st ++ [tok1] |} closer
    = Ok {| fence_count := c + 1 + 1;
            fence_stack := if str_eqb tok1 tok2 then st
                           else (st ++ [tok1]) ++ [tok2] |}).
  { rewrite (fence_body_marker _ _ _ _ H2). fold tok2.
    rewrite last_last, removelast_last.
    destruct (st ++ [tok1]) eqn:E; [destruct st; discriminate E|].
    destruct (str_eqb tok1 tok2); reflexivity. }
  eexists. split.
  { cbn [for_each]. rewrite Hpush, bind_ok, for_each_app.
    rewrite (fence_loop_others _ _ Hmid), bind_ok.
    cbn [for_each]. rewrite Hnext. reflexivity. }
  cbn [fence_count fence_stack].
  assert (Heq : tok1 = tok2 -> (if str_eqb tok1 tok2 then st
                                else (st ++ [tok1]) ++ [tok2]) = st).
  { intros E. apply str_eqb_eq in E. rewrite E. reflexivity. }
  assert (Hne : tok1 <> tok2 -> (if str_eqb tok1 tok2 then st
                                 else (st ++ [tok1]) ++ [tok2])
                                = st ++ [tok1; tok2]).
  { intros E. apply str_eqb_neq in E. rewrite E, <- app_assoc.
    reflexivity. }
  split; [lia|]. split; [exact Heq|]. split; [exact Hne|]. split.
  - intros -> (ch & tl & -> & Hch).
    change tok2 with triple in *. apply Hne.
    unfold tok1. cbn [Spec.first_field]. rewrite Hch.
    intros E. apply (f_equal (@List.length codepoint)) in E.
    rewrite length_app in E. cbn in E. lia.
  - intros -> (ch & tl & -> & Hch). apply Heq.
    unfold tok1, tok2. cbn [Spec.first_field]. rewrite Hch. reflexivity.
Qed.

Lemma fence_identity_is_first_field_witness :
  (exists v,
     for_each fence_body [lit "```python"; lit "print(1)"; lit "```"]
       {| fence_count := 0; fence_stack := [] |} = Ok v
     /\ fence_stack v = [lit "```python"; lit "```"])
  /\ (exists v,
        for_each fence_body [lit "``` python"; lit "print(1)"; lit "```"]
          {| fence_count := 0; fence_stack := [] |} = Ok v
        /\ fence_stack v = []).
Proof.
  split.
  - destruct (fence_identity_is_first_field 0 [] (lit "```python") (lit "```")
                [lit "print(1)"] (lit "python") [])
      as (v & Hv & _ & _ & _ & H & _);
      [reflexivity | reflexivity | repeat constructor | discriminate |].
    exists v. split; [exact Hv|].
    apply H; [reflexivity|]. exists 112%N, (lit "ython"). split; reflexivity.
  - destruct (fence_identity_is_first_field 0 [] (lit "``` python") (lit "```")
                [lit "print(1)"] (lit " python") [])
      as (v & Hv & _ & _ & _ & _ & H);
      [reflexivity | reflexivity | repeat constructor | discriminate |].
    exists v. split; [exact Hv|].
    apply H; [reflexivity|]. exists 32%N, (lit "python"). split; reflexivity.
Defined.

(** C4.  The stack is meant to pair an opening fence-marker line with
    the bare triple run that closes it, whatever language tag the
    opening line carries; the code misses the case of a tag attached to
    the run.  On the two lines "```python" and "```" the fence loop
    pushes the bare line on top of the tagged one and ends with both
    tokens on the stack, while on the same lines the inline loop closes
    the region it opened and the counter is even; and with the tag
    separated by whitespace, "``` python", the same bare line does pop
    the opening line. *)
Theorem tagged_fence_left_on_stack :
  let doc := splitlines (lit "```python" ++ [LF] ++ lit "```") in
  doc = [lit "```python"; lit "```"]
  /\ fence_pass doc
     = Ok {| fence_count := 2;
             fence_stack := [lit "```python"; lit "```"] |}
  /\ inline_pass doc
     = Ok {| outside_backticks := 0; in_fence := false; fence_curr := None |}
  /\ inline_pass [lit "```python"]
     = Ok {| outside_backticks := 0; in_fence := true;
             fence_curr := Some (lit "```python") |}
  /\ fence_pass (splitlines (lit "``` python" ++ [LF] ++ lit "```"))
     = Ok {| fence_count := 2; fence_stack := [] |}.
Proof.
  intros doc. split; [reflexivity|]. split; [reflexivity|].
  split; [reflexivity|]. split; reflexivity.
Qed.

(** C5.  Between an opening fence-marker line and the next one, nothing
    is added to the outside count, and the two fence-marker lines add
    nothing themselves: the inline loop leaves such a block with the
    count it entered with.  A document that is one such block, free of
    escaped markers, passes however many inline markers the block
    holds. *)
Theorem fenced_markers_not_counted
    (text opener closer : str) (body : list str) :
  splitlines text = opener :: body ++ [closer] ->
  Spec.is_fence_line opener = true ->
  Forall (fun l => Spec.is_fence_line l = false) body ->
  Spec.is_fence_line closer = true ->
  Spec.escape_occurrences text = 0 ->
  (forall v, in_fence v = false ->
     exists v', for_each inline_body (opener :: body ++ [closer]) v = Ok v'
       /\ outside_backticks v' = outside_backticks v /\ in_fence v' = false)
  /\ Spec.outside_fence_inline_count (splitlines text) = 0
  /\ scan text = Ok {| passed := true; issues := [] |}.
Proof.
  intros Hlines Hopen Hbody Hclose Hesc.
  assert (Hcount : Spec.outside_fence_inline_count (splitlines text) = 0).
  { rewrite Hlines. unfold Spec.outside_fence_inline_count.
    cbn [Spec.outside_inline_from]. rewrite Hopen, outside_inline_app.
    rewrite (outside_inline_inside 1 body eq_refl Hbody).
    cbn [Spec.outside_inline_from]. rewrite Hclose. reflexivity. }
  assert (Hfences : Spec.fence_marker_lines (splitlines text) = 2).
  { rewrite Hlines. change (opener :: body ++ [closer])
      with ([opener] ++ body ++ [closer]).
    rewrite !fence_marker_lines_app, (fence_marker_lines_none _ Hbody).
    unfold Spec.fence_marker_lines. cbn [filter].
    rewrite Hopen, Hclose. reflexivity. }
  split; [|split; [exact Hcount|]].
  - intros v Hv.
    destruct (inline_loop (opener :: body ++ [closer]) v 0 Hv)
      as (v' & Hrun & Ho & Hf).
    exists v'. split; [exact Hrun|].
    rewrite <- Hlines in Ho, Hf.
    fold (Spec.outside_fence_inline_count (splitlines text)) in Ho.
    rewrite Hcount in Ho. rewrite Hfences in Hf. split; [lia | exact Hf].
  - apply scan_no_issue; rewrite ?Hfences, ?Hcount; auto.
Qed.

Lemma fenced_markers_not_counted_witness :
  scan (lit "```sh" ++ [LF] ++ lit "echo `date" ++ [LF] ++ lit "```")
  = Ok {| passed := true; issues := [] |}.
Proof.
  apply (fenced_markers_not_counted
           (lit "```sh" ++ [LF] ++ lit "echo `date" ++ [LF] ++ lit "```")
           (lit "```sh") (lit "```") [lit "echo `date"]);
    try reflexivity.
  repeat constructor.
Defined.

(** C6.  The escape issue is in the issue list exactly when the raw
    text holds at least one escaped marker, and it names their number,
    which is the number of positions where a backslash is followed by a
    backtick: lines and fenced regions play no part, neither do the two
    other checks.  Two escaped markers are reported as 2. *)
Theorem escape_issue_iff_occurs (text : str) :
  exists v, scan text = Ok v
    /\ escaped text = Spec.escape_occurrences text
    /\ (forall n, In (escape_issue n) (issues v)
                  <-> n = Spec.escape_occurrences text /\ 0 < n)
    /\ (forall a b, 0 < escaped (a ++ [backslash; backtick] ++ b))
    /\ scan (lit "\`\`")
       = Ok {| passed := false; issues := [escape_issue 2] |}
    /\ scan (lit "```" ++ [LF] ++ lit "\`" ++ [LF] ++ lit "```")
       = Ok {| passed := false; issues := [escape_issue 1] |}.
Proof.
  eexists. split; [apply scan_verdict|].
  split; [apply escaped_occurrences|]. split.
  - intros n. cbn [issues verdict_of].
    rewrite in_errs_escape, escaped_occurrences.
    split; intros [-> H]; auto.
  - split; [|split; reflexivity].
    intros a b. rewrite escaped_occurrences. apply escape_occurrences_pos.
Qed.

Lemma escape_issue_iff_occurs_witness :
  exists v, scan (lit "a \` b") = Ok v
    /\ In (escape_issue 1) (issues v).
Proof.
  destruct (escape_issue_iff_occurs (lit "a \` b")) as (v & Hv & _ & H & _).
  exists v. split; [exact Hv|]. apply H. split; [reflexivity | vm_compute; lia].
Defined.

(** C7.  The inline issue is in the issue list exactly when the number
    of inline markers outside fenced regions is odd, and it names that
    number.  A document of one line that is no fence-marker line and
    holds one inline marker fails with the issue naming 1, as
    "this is `broken" does. *)
Theorem inline_issue_iff_odd_count (text : str) :
  let o := Spec.outside_fence_inline_count (splitlines text) in
  exists v, scan text = Ok v
    /\ (forall n, In (inline_issue n) (issues v) <-> n = o /\ Nat.odd o = true)
    /\ (forall line, splitlines text = [line] ->
          Spec.is_fence_line line = false ->
          count line [backtick] = 1 ->
          passed v = false /\ In (inline_issue 1) (issues v))
    /\ scan (lit "this is `broken")
       = Ok {| passed := false; issues := [inline_issue 1] |}.
Proof.
  intros o. eexists. split; [apply scan_verdict|].
  split; [intros n; apply in_errs_inline|]. split; [|reflexivity].
  intros line Hl Hf Hc.
  assert (Ho : o = 1).
  { unfold o, Spec.outside_fence_inline_count. rewrite Hl.
    cbn [Spec.outside_inline_from]. rewrite Hf, <- count_backtick, Hc.
    reflexivity. }
  assert (Hin : In (inline_issue 1)
                  (errs (Spec.fence_marker_lines (splitlines text))
                     (escaped text) o))
    by (apply in_errs_inline; rewrite Ho; auto).
  split; [exact (passed_of_issue _ _ Hin) | exact Hin].
Qed.

Lemma inline_issue_iff_odd_count_witness :
  let text := lit "  a `b c" ++ [LF] in
  exists v, scan text = Ok v
    /\ passed v = false /\ In (inline_issue 1) (issues v).
Proof.
  intros text.
  destruct (inline_issue_iff_odd_count text) as (v & Hv & _ & H & _).
  exists v. split; [exact Hv|].
  apply (H (lit "  a `b c")); reflexivity.
Defined.

(** ** The output *)

Lemma print_issue (e : str) : print [lit "-"; e] = lit "- " ++ e ++ [LF].
Proof. unfold print. cbn. rewrite app_nil_r. reflexivity. Qed.

Lemma report_issues (errs : list str) :
  errs <> [] ->
  report errs
  = {| stdout := lit "SYNTAX-ISSUES" ++ [LF]
                 ++ flat_map (fun e => lit "- " ++ e ++ [LF]) errs;
       status := 2 |}.
Proof.
  destruct errs as [|e es]; [congruence|]. intros _.
  unfold report. f_equal.
  rewrite (flat_map_ext _ (fun e => lit "- " ++ e ++ [LF]))
    by (intros; apply print_issue).
  reflexivity.
Qed.

Lemma splitlines_report (errs : list str) :
  Forall (fun s => one_line s = true) errs ->
  splitlines (lit "SYNTAX-ISSUES" ++ [LF]
              ++ flat_map (fun e => lit "- " ++ e ++ [LF]) errs)
  = lit "SYNTAX-ISSUES" :: map (fun e => lit "- " ++ e) errs.
Proof.
  intros H. unfold splitlines.
  change (lit "SYNTAX-ISSUES" ++ [LF]
          ++ flat_map (fun e => lit "- " ++ e ++ [LF]) errs)
    with (lit "SYNTAX-ISSUES"
          ++ LF :: flat_map (fun e => lit "- " ++ e ++ [LF]) errs).
  rewrite splitlines_from_line by reflexivity.
  rewrite <- (flat_map_ext (fun e => print [lit "-"; e]))
    by (intros; apply print_issue).
  fold (splitlines (flat_map (fun e => print [lit "-"; e]) errs)).
  rewrite splitlines_issue_lines by assumption. reflexivity.
Qed.

(** C8.  When the issue list is not empty the script prints the header
    SYNTAX-ISSUES and then one line per issue, in the order of the list,
    and ends with status 2; when it is empty the script prints its
    confirmation and ends with status 0. *)
Theorem report_at_output_boundary (text : str) :
  exists v p, scan text = Ok v /\ main text = Ok p
    /\ (issues v <> [] ->
        stdout p = lit "SYNTAX-ISSUES" ++ [LF]
                   ++ flat_map (fun e => lit "- " ++ e ++ [LF]) (issues v)
        /\ splitlines (stdout p)
           = lit "SYNTAX-ISSUES" :: map (fun e => lit "- " ++ e) (issues v)
        /\ status p = 2)
    /\ (issues v = [] -> stdout p = ok_message ++ [LF] /\ status p = 0).
Proof.
  eexists. eexists. split; [apply scan_verdict|].
  split; [apply (main_of_scan _ _ (scan_verdict text))|].
  cbn [issues verdict_of]. split.
  - intros Hne. rewrite (report_issues _ Hne). cbn [stdout status].
    split; [reflexivity|]. split; [|reflexivity].
    apply splitlines_report, errs_one_line.
  - intros ->. split; reflexivity.
Qed.

Lemma report_at_output_boundary_witness :
  exists p, main (lit "```" ++ [LF] ++ lit "\` `") = Ok p
    /\ splitlines (stdout p)
       = [lit "SYNTAX-ISSUES"; lit "- " ++ fence_issue 1;
          lit "- " ++ escape_issue 1]
    /\ status p = 2.
Proof.
  destruct (report_at_output_boundary (lit "```" ++ [LF] ++ lit "\` `"))
    as (v & p & Hv & Hp & H & _).
  exists p. split; [exact Hp|].
  injection Hv as <-.
  destruct H as (_ & Hl & Hs); [discriminate|].
  split; [exact Hl | exact Hs].
Defined.

(** C9.  No document makes the scan raise: both loops, the count and
    the construction of the issue list return for every text, the token
    of a fence-marker line is always defined, and the script ends with
    status 0 or 2. *)
Theorem scan_never_raises :
  (forall text, exists v p,
      scan text = Ok v /\ main text = Ok p /\ (status p = 0 \/ status p = 2))
  /\ (forall lines, exists fv iv,
        fence_pass lines = Ok fv /\ inline_pass lines = Ok iv)
  /\ (forall line, Spec.is_fence_line line = true ->
        exists tok, getitem0 (split (lstrip line)) = Ok tok)
  /\ (forall rest, exists tok, getitem0 (split (triple ++ rest)) = Ok tok).
Proof.
  split; [|split; [|split]].
  - intros text. eexists. eexists. split; [apply scan_verdict|].
    split; [apply (main_of_scan _ _ (scan_verdict text))|].
    cbn [issues verdict_of].
    destruct (errs _ _ _); cbn; auto.
  - intros lines.
    destruct (fence_loop lines {| fence_count := 0; fence_stack := [] |})
      as (fv & Hf & _).
    destruct (inline_loop lines
                {| outside_backticks := 0; in_fence := false;
                   fence_curr := None |} 0 eq_refl) as (iv & Hi & _).
    exists fv, iv. auto.
  - intros line H. destruct (fence_line_token _ H) as (rest & _ & Ht). eauto.
  - intros rest. eexists. apply fence_token_defined.
Qed.

Lemma scan_never_raises_witness :
  exists tok, getitem0 (split (lstrip (lit "   ```"))) = Ok tok.
Proof.
  apply (proj1 (proj2 (proj2 scan_never_raises)) (lit "   ```")).
  reflexivity.
Defined.

(** C10.  The marker of an escaped sequence is an inline marker like
    any other: a backslash and a backtick in a line add one to the
    line's marker count.  The document made of just these two characters
    fails with two issues, one escaped sequence and one inline marker. *)
Theorem escaped_marker_still_counted :
  scan [backslash; backtick]
  = Ok {| passed := false; issues := [escape_issue 1; inline_issue 1] |}
  /\ (forall pre post,
        count (pre ++ [backslash; backtick] ++ post) [backtick]
        = count pre [backtick] + 1 + count post [backtick]).
Proof.
  split; [reflexivity|]. intros pre post.
  rewrite !count_backtick, !inline_markers_app.
  change (Spec.inline_markers [backslash; backtick]) with 1. lia.
Qed.

(** * Further properties of the script *)

(** ** Loop invariants *)

Lemma for_each_invariant {S : Type} (P : S -> Prop)
    (body : S -> str -> result S) :
  (forall v line v', P v -> body v line = Ok v' -> P v') ->
  forall lines v v', P v -> for_each body lines v = Ok v' -> P v'.
Proof.
  intros Hstep. induction lines as [|line lines IH]; intros v v' Hv Hrun.
  - cbn in Hrun. injection Hrun as <-. exact Hv.
  - cbn [for_each] in Hrun. destruct (body v line) as [w|e] eqn:E.
    + rewrite bind_ok in Hrun. exact (IH w v' (Hstep _ _ _ Hv E) Hrun).
    + discriminate Hrun.
Qed.

Lemma first_field_no_space (s : str) :
  forallb (fun c => negb (isspace c)) (Spec.first_field s) = true.
Proof.
  induction s as [|c s IH]; [reflexivity|].
  cbn [Spec.first_field]. destruct (isspace c) eqn:E; [reflexivity|].
  cbn [forallb]. rewrite E, IH. reflexivity.
Qed.

Lemma fence_token_first_field (rest : str) :
  fence_token (triple ++ Spec.first_field rest) = true.
Proof.
  unfold fence_token. apply andb_true_iff. split.
  - apply startswith_app. eauto.
  - rewrite forallb_app, first_field_no_space. reflexivity.
Qed.

Lemma adjacent_distinct_snoc (l : list str) (x y : str) :
  adjacent_distinct ((l ++ [x]) ++ [y])
  = adjacent_distinct (l ++ [x]) && negb (str_eqb x y).
Proof.
  induction l as [|a l IH].
  - cbn. rewrite !andb_true_r. reflexivity.
  - destruct l as [|b l].
    + cbn. rewrite !andb_true_r. reflexivity.
    + change (adjacent_distinct (((a :: b :: l) ++ [x]) ++ [y]))
        with (negb (str_eqb a b)
              && adjacent_distinct (((b :: l) ++ [x]) ++ [y])).
      change (adjacent_distinct ((a :: b :: l) ++ [x]))
        with (negb (str_eqb a b) && adjacent_distinct ((b :: l) ++ [x])).
      rewrite IH, andb_assoc. reflexivity.
Qed.

Lemma adjacent_distinct_init (l : list str) (x : str) :
  adjacent_distinct (l ++ [x]) = true -> adjacent_distinct l = true.
Proof.
  induction l as [|a l IH]; [reflexivity|].
  destruct l as [|b l]; [reflexivity|].
  change (adjacent_distinct ((a :: b :: l) ++ [x]))
    with (negb (str_eqb a b) && adjacent_distinct ((b :: l) ++ [x])).
  change (adjacent_distinct (a :: b :: l))
    with (negb (str_eqb a b) && adjacent_distinct (b :: l)).
  intros H. apply andb_true_iff in H. destruct H as [H1 H2].
  rewrite H1, (IH H2). reflexivity.
Qed.

Lemma even_succ_eq (a b : nat) :
  Nat.even a = Nat.even b -> Nat.even (S a) = Nat.even (S b).
Proof.
  intros H. rewrite !Nat.even_succ, <- !Nat.negb_even, H. reflexivity.
Qed.

Lemma even_pred_eq (a b : nat) :
  Nat.even (S a) = Nat.even b -> Nat.even a = Nat.even (S b).
Proof.
  intros H. rewrite (Nat.even_succ b), <- Nat.negb_even, <- H.
  rewrite Nat.even_succ, Nat.negb_odd. reflexivity.
Qed.

Lemma fence_invariant_init :
  fence_invariant {| fence_count := 0; fence_stack := [] |}.
Proof.
  unfold fence_invariant. cbn.
  split; [lia|]. split; [reflexivity|]. split; [reflexivity | constructor].
Qed.

Lemma fence_body_invariant (v : fence_vars) (line : str) (v' : fence_vars) :
  fence_invariant v -> fence_body v line = Ok v' -> fence_invariant v'.
Proof.
  intros Hv Hrun. destruct (Spec.is_fence_line line) eqn:F.
  2:{ rewrite fence_body_other in Hrun by assumption.
      injection Hrun as <-. exact Hv. }
  apply startswith_app in F. destruct F as [rest F].
  destruct v as [c st]. rewrite (fence_body_marker _ _ _ _ F) in Hrun.
  pose proof (fence_token_first_field rest) as Htk.
  remember (triple ++ Spec.first_field rest) as tok eqn:Etok. clear Etok.
  injection Hrun as <-.
  destruct Hv as (Hle & Hpar & Hadj & Htok). cbn [fence_count fence_stack] in *.
  unfold fence_invariant. cbn [fence_count fence_stack].
  destruct st as [|x st0] eqn:Est.
  - cbn in Hle, Hpar. cbn [app List.length].
    split; [lia|]. split; [|split; [reflexivity | repeat constructor; exact Htk]].
    rewrite Nat.add_1_r. apply (even_succ_eq 0 c), Hpar.
  - rewrite <- Est in *.
    assert (Hne : st <> []) by (subst st; discriminate).
    destruct (exists_last Hne) as (st' & top & E). clear Est x st0.
    subst st. rewrite last_last, removelast_last.
    rewrite length_app in Hle, Hpar. cbn [List.length] in Hle, Hpar.
    rewrite Nat.add_1_r in Hpar.
    destruct (str_eqb top tok) eqn:Eq; cbn [negb].
    + apply Forall_app in Htok. destruct Htok as [Htok _].
      split; [lia|].
      split; [|split; [exact (adjacent_distinct_init _ _ Hadj) | exact Htok]].
      rewrite Nat.add_1_r. apply even_pred_eq, Hpar.
    + split; [|split; [|split]].
      * rewrite !length_app. cbn [List.length]. lia.
      * rewrite !length_app. cbn [List.length].
        rewrite !Nat.add_1_r. apply even_succ_eq, Hpar.
      * rewrite adjacent_distinct_snoc, Hadj, Eq. reflexivity.
      * apply Forall_app. split; [exact Htok | repeat constructor; exact Htk].
Qed.

Lemma inline_body_invariant (v : inline_vars) (line : str) (v' : inline_vars) :
  inline_invariant v -> inline_body v line = Ok v' -> inline_invariant v'.
Proof.
  unfold inline_invariant, inline_body. intros Hv Hrun.
  destruct (startswith (lstrip line) triple) eqn:F.
  - destruct (fence_line_token line F) as (rest & _ & Ht).
    rewrite Ht in Hrun.
    destruct (in_fence v); cbn [negb] in Hrun; try rewrite bind_ok in Hrun;
      injection Hrun as <-; cbn [fence_curr in_fence].
    + reflexivity.
    + split; [reflexivity | apply fence_token_first_field].
  - destruct (in_fence v) eqn:I; cbn [negb] in Hrun; injection Hrun as <-.
    + rewrite I. exact Hv.
    + cbn [fence_curr in_fence]. exact Hv.
Qed.

(** ** What [splitlines] keeps of the text *)

Lemma splitlines_from_concat (t cur : str) :
  concat (splitlines_from cur t)
  = rev cur ++ filter (fun c => negb (is_linebreak c)) t.
Proof.
  revert cur; induction t as [|c t IH]; intros cur.
  - cbn. destruct cur; [reflexivity|]. cbn [concat]. reflexivity.
  - cbn [splitlines_from filter]. destruct (is_linebreak c) eqn:B; cbn [negb].
    + cbn [concat]. f_equal.
      destruct (c =? CR)%N; [|apply (IH [])].
      destruct t as [|d t']; [apply (IH [])|].
      destruct (d =? LF)%N eqn:D; [|apply (IH [])].
      apply N.eqb_eq in D. subst d. exact (IH []).
    + rewrite IH. cbn [rev]. rewrite <- app_assoc. reflexivity.
Qed.

Lemma splitlines_from_one_line (t cur : str) :
  one_line (rev cur) = true ->
  Forall (fun l => one_line l = true) (splitlines_from cur t).
Proof.
  revert cur; induction t as [|c t IH]; intros cur Hcur.
  - cbn. destruct cur; repeat constructor. exact Hcur.
  - cbn [splitlines_from]. destruct (is_linebreak c) eqn:B.
    + constructor; [exact Hcur|].
      destruct (c =? CR)%N; [|apply (IH []); reflexivity].
      destruct t as [|d t']; [apply (IH []); reflexivity|].
      destruct (d =? LF)%N eqn:D; [|apply (IH []); reflexivity].
      apply N.eqb_eq in D. subst d.
      pose proof (IH [] eq_refl) as H. inversion H. assumption.
    + apply IH. cbn [rev]. rewrite one_line_app, Hcur. cbn. rewrite B.
      reflexivity.
Qed.

(** ** Counting backticks *)

Lemma inline_markers_concat (ls : list str) :
  Spec.inline_markers (concat ls) = list_sum (map Spec.inline_markers ls).
Proof.
  induction ls as [|l ls IH]; [reflexivity|].
  cbn [concat map list_sum]. rewrite inline_markers_app, IH. reflexivity.
Qed.

Lemma inline_markers_no_breaks (t : str) :
  Spec.inline_markers (filter (fun c => negb (is_linebreak c)) t)
  = Spec.inline_markers t.
Proof.
  unfold Spec.inline_markers. induction t as [|c t IH]; [reflexivity|].
  cbn [filter]. destruct (is_linebreak c) eqn:B; cbn [negb filter].
  - destruct (N.eqb_spec backtick c) as [<-|_]; [discriminate B | exact IH].
  - destruct (backtick =? c)%N; cbn [List.length]; rewrite IH; reflexivity.
Qed.

Lemma inline_markers_lines (text : str) :
  list_sum (map Spec.inline_markers (splitlines text))
  = Spec.inline_markers text.
Proof.
  rewrite <- inline_markers_concat. unfold splitlines.
  rewrite splitlines_from_concat. apply inline_markers_no_breaks.
Qed.

Lemma lstrip_whitespace (ws l : str) :
  forallb isspace ws = true -> lstrip (ws ++ l) = lstrip l.
Proof.
  induction ws as [|c ws IH]; [reflexivity|]. cbn [forallb app lstrip].
  intros H. apply andb_true_iff in H. destruct H as [-> H]. exact (IH H).
Qed.

Lemma lstrip_is_suffix (l : str) :
  exists ws, l = ws ++ lstrip l /\ forallb isspace ws = true.
Proof.
  induction l as [|c l (ws & E & H)]; [exists []; auto|].
  cbn [lstrip]. destruct (isspace c) eqn:S.
  - exists (c :: ws). cbn [app forallb]. rewrite S, H, <- E. auto.
  - exists []. auto.
Qed.

Lemma inline_markers_whitespace (ws : str) :
  forallb isspace ws = true -> Spec.inline_markers ws = 0.
Proof.
  unfold Spec.inline_markers. induction ws as [|c ws IH]; [reflexivity|].
  cbn [forallb filter]. intros H. apply andb_true_iff in H.
  destruct H as [Hc H].
  destruct (N.eqb_spec backtick c) as [<-|_]; [discriminate Hc | exact (IH H)].
Qed.

Lemma inline_markers_lstrip (l : str) :
  Spec.inline_markers (lstrip l) = Spec.inline_markers l.
Proof.
  destruct (lstrip_is_suffix l) as (ws & E & H).
  rewrite E at 2. rewrite inline_markers_app, (inline_markers_whitespace _ H).
  reflexivity.
Qed.

Lemma fence_line_markers (l : str) :
  Spec.is_fence_line l = true -> 3 <= Spec.inline_markers l.
Proof.
  intros F. apply startswith_app in F. destruct F as [r F].
  rewrite <- inline_markers_lstrip, F, inline_markers_app.
  change (Spec.inline_markers triple) with 3. lia.
Qed.

Lemma lines_markers_bound (ls : list str) (seen : nat) :
  3 * Spec.fence_marker_lines ls + Spec.outside_inline_from seen ls
  <= list_sum (map Spec.inline_markers ls).
Proof.
  revert seen; induction ls as [|l ls IH]; intros seen; [cbn; lia|].
  unfold Spec.fence_marker_lines in *.
  cbn [filter Spec.outside_inline_from map].
  change (list_sum (Spec.inline_markers l :: map Spec.inline_markers ls))
    with (Spec.inline_markers l + list_sum (map Spec.inline_markers ls)).
  destruct (Spec.is_fence_line l) eqn:F.
  - pose proof (fence_line_markers _ F). specialize (IH (S seen)).
    cbn [List.length]. lia.
  - specialize (IH seen). destruct (Nat.even seen); lia.
Qed.

Lemma escape_occurrences_markers (t : str) :
  Spec.escape_occurrences t <= Spec.inline_markers t.
Proof.
  enough (H : forall t a, Spec.escape_occurrences (a :: t)
                          <= Spec.inline_markers t).
  { destruct t as [|a t]; [cbn; lia|].
    etransitivity; [apply H|].
    change (a :: t) with ([a] ++ t). rewrite inline_markers_app. lia. }
  clear t. induction t as [|b t IH]; intros a; [cbn; lia|].
  change (Spec.escape_occurrences (a :: b :: t))
    with ((if (a =? backslash)%N && (b =? backtick)%N then 1 else 0)
          + Spec.escape_occurrences (b :: t)).
  change (b :: t) with ([b] ++ t) at 2. rewrite inline_markers_app.
  specialize (IH b).
  destruct (N.eqb_spec b backtick) as [->|Hb].
  - change (Spec.inline_markers [backtick]) with 1.
    destruct ((a =? backslash)%N && true); lia.
  - rewrite andb_false_r. lia.
Qed.

(** ** A line feed at the end of the text *)

Lemma splitlines_from_lf (t cur : str) :
  exists e, (e = [] \/ e = [[]])
    /\ splitlines_from cur (t ++ [LF]) = splitlines_from cur t ++ e.
Proof.
  revert cur; induction t as [|c t IH]; intros cur.
  - destruct cur as [|x cur]; [exists [[]] | exists []]; auto.
  - cbn [app splitlines_from]. destruct (is_linebreak c) eqn:B.
    + assert (Hplain : exists e, (e = [] \/ e = [[]])
                /\ rev cur :: splitlines_from [] (t ++ [LF])
                   = (rev cur :: splitlines_from [] t) ++ e).
      { destruct (IH []) as (e & He & ->). exists e. auto. }
      destruct (c =? CR)%N; [|exact Hplain].
      destruct t as [|d t'].
      * exists []. cbn. auto.
      * cbn [app]. destruct (d =? LF)%N eqn:D; [|exact Hplain].
        apply N.eqb_eq in D. subst d.
        destruct (IH []) as (e & He & Hs). exists e. split; [exact He|].
        cbn in Hs. injection Hs as Hs. cbn [app]. rewrite Hs. reflexivity.
    + apply IH.
Qed.

Lemma escape_occurrences_lf (t : str) :
  Spec.escape_occurrences (t ++ [LF]) = Spec.escape_occurrences t.
Proof.
  enough (H : forall t a, Spec.escape_occurrences (a :: t ++ [LF])
                          = Spec.escape_occurrences (a :: t)).
  { destruct t as [|a t]; [reflexivity | apply H]. }
  clear t. induction t as [|b t IH]; intros a.
  - cbn. rewrite andb_false_r. reflexivity.
  - change (Spec.escape_occurrences (a :: (b :: t) ++ [LF]))
      with ((if (a =? backslash)%N && (b =? backtick)%N then 1 else 0)
            + Spec.escape_occurrences (b :: t ++ [LF])).
    rewrite IH. reflexivity.
Qed.

Lemma quantities_lf (text : str) :
  Spec.fence_marker_lines (splitlines (text ++ [LF]))
  = Spec.fence_marker_lines (splitlines text)
  /\ Spec.outside_fence_inline_count (splitlines (text ++ [LF]))
     = Spec.outside_fence_inline_count (splitlines text).
Proof.
  unfold splitlines, Spec.outside_fence_inline_count.
  destruct (splitlines_from_lf text []) as (e & He & ->).
  rewrite fence_marker_lines_app, outside_inline_app.
  destruct He as [-> | ->]; cbn [Spec.outside_inline_from].
  - cbn. lia.
  - change (Spec.is_fence_line []) with false.
    change (Spec.fence_marker_lines [[]]) with 0.
    change (Spec.inline_markers []) with 0.
    destruct (Nat.even _); lia.
Qed.

(** ** The extra properties *)

(** X1.  The two loops agree on where the document ends: the inline
    loop finishes inside a fenced region exactly when the fence loop
    counted an odd number of fence-marker lines, that is exactly when
    the fence issue is reported. *)
Theorem loops_agree_on_open_fence (text : str) :
  exists fv iv v,
    fence_pass (splitlines text) = Ok fv
    /\ inline_pass (splitlines text) = Ok iv
    /\ scan text = Ok v
    /\ in_fence iv = Nat.odd (fence_count fv)
    /\ (In (fence_issue (fence_count fv)) (issues v) <-> in_fence iv = true).
Proof.
  unfold fence_pass, inline_pass.
  destruct (fence_loop (splitlines text)
              {| fence_count := 0; fence_stack := [] |}) as (fv & Hf & Cf).
  destruct (inline_loop (splitlines text)
              {| outside_backticks := 0; in_fence := false;
                 fence_curr := None |} 0 eq_refl) as (iv & Hi & _ & Fi).
  exists fv, iv. eexists.
  split; [exact Hf|]. split; [exact Hi|]. split; [apply scan_verdict|].
  cbn [fence_count] in Cf. cbn [Nat.add] in Cf, Fi. rewrite Cf, Fi.
  split; [reflexivity|]. cbn [issues verdict_of].
  rewrite in_errs_fence. tauto.
Qed.

Lemma loops_agree_on_open_fence_witness :
  exists fv iv v,
    fence_pass (splitlines (lit "```" ++ [LF] ++ lit "x")) = Ok fv
    /\ inline_pass (splitlines (lit "```" ++ [LF] ++ lit "x")) = Ok iv
    /\ scan (lit "```" ++ [LF] ++ lit "x") = Ok v
    /\ in_fence iv = true
    /\ In (fence_issue 1) (issues v).
Proof.
  destruct (loops_agree_on_open_fence (lit "```" ++ [LF] ++ lit "x"))
    as (fv & iv & v & Hf & Hi & Hv & Hodd & Hin).
  exists fv, iv, v. split; [exact Hf|]. split; [exact Hi|].
  split; [exact Hv|].
  injection Hf as <-. injection Hi as <-.
  split; [reflexivity|]. apply Hin. reflexivity.
Defined.

(** X2.  When the inline loop is done, its current token is set exactly
    when it is inside a fenced region, and the token is then a first
    field that begins with the triple marker. *)
Theorem fence_curr_tracks_in_fence (lines : list str) :
  exists iv, inline_pass lines = Ok iv
    /\ (in_fence iv = true ->
        exists tok, fence_curr iv = Some tok /\ fence_token tok = true)
    /\ (in_fence iv = false -> fence_curr iv = None).
Proof.
  destruct (inline_loop lines
              {| outside_backticks := 0; in_fence := false;
                 fence_curr := None |} 0 eq_refl) as (iv & Hi & _).
  exists iv. split; [exact Hi|].
  assert (Hinv : inline_invariant iv).
  { eapply (for_each_invariant inline_invariant inline_body);
      [exact inline_body_invariant | | exact Hi]. reflexivity. }
  unfold inline_invariant in Hinv.
  destruct (fence_curr iv) as [tok|].
  - destruct Hinv as [Hin Htok]. split; [eauto | congruence].
  - split; [congruence | reflexivity].
Qed.

Lemma fence_curr_tracks_in_fence_witness :
  exists iv, inline_pass [lit "a"; lit "  ```sh  x"; lit "b"] = Ok iv
    /\ exists tok, fence_curr iv = Some tok /\ fence_token tok = true.
Proof.
  destruct (fence_curr_tracks_in_fence [lit "a"; lit "  ```sh  x"; lit "b"])
    as (iv & Hi & H & _).
  exists iv. split; [exact Hi|]. apply H.
  injection Hi as <-. reflexivity.
Defined.

(** X3.  The fence stack never holds more tokens than fence-marker
    lines were counted, and its height has the parity of the counter.
    So a stack that ends empty means an even count, and an odd count
    leaves the stack non-empty. *)
Theorem fence_stack_height (lines : list str) :
  exists fv, fence_pass lines = Ok fv
    /\ List.length (fence_stack fv) <= fence_count fv
    /\ Nat.even (List.length (fence_stack fv)) = Nat.even (fence_count fv)
    /\ (fence_stack fv = [] -> Nat.odd (fence_count fv) = false)
    /\ (Nat.odd (fence_count fv) = true -> fence_stack fv <> []).
Proof.
  destruct (fence_loop lines {| fence_count := 0; fence_stack := [] |})
    as (fv & Hf & _).
  exists fv. split; [exact Hf|].
  assert (Hinv : fence_invariant fv).
  { eapply (for_each_invariant fence_invariant fence_body);
      [exact fence_body_invariant | exact fence_invariant_init | exact Hf]. }
  destruct Hinv as (Hle & Hpar & _).
  split; [exact Hle|]. split; [exact Hpar|].
  assert (Hempty : fence_stack fv = [] -> Nat.odd (fence_count fv) = false).
  { intros E. rewrite E in Hpar. cbn in Hpar.
    rewrite <- Nat.negb_even, <- Hpar. reflexivity. }
  split; [exact Hempty|].
  intros Hodd E. rewrite (Hempty E) in Hodd. discriminate Hodd.
Qed.

Lemma fence_stack_height_witness :
  exists fv, fence_pass [lit "```"; lit "x"; lit "```py"; lit "```py"] = Ok fv
    /\ fence_stack fv <> [].
Proof.
  destruct (fence_stack_height [lit "```"; lit "x"; lit "```py"; lit "```py"])
    as (fv & Hf & _ & _ & _ & H).
  exists fv. split; [exact Hf|]. apply H.
  injection Hf as <-. reflexivity.
Defined.

(** X4.  Whatever the document, no two neighbours on the fence stack
    are the same token, and every token on it begins with the triple
    marker and holds no whitespace. *)
Theorem fence_stack_shape (lines : list str) :
  exists fv, fence_pass lines = Ok fv
    /\ adjacent_distinct (fence_stack fv) = true
    /\ Forall (fun tok => fence_token tok = true) (fence_stack fv).
Proof.
  destruct (fence_loop lines {| fence_count := 0; fence_stack := [] |})
    as (fv & Hf & _).
  exists fv. split; [exact Hf|].
  assert (Hinv : fence_invariant fv).
  { eapply (for_each_invariant fence_invariant fence_body);
      [exact fence_body_invariant | exact fence_invariant_init | exact Hf]. }
  destruct Hinv as (_ & _ & Hadj & Htok). auto.
Qed.

(** X5.  A text without any backtick passes: the script prints its
    confirmation and ends with status 0. *)
Theorem no_backtick_passes (text : str) :
  count text [backtick] = 0 ->
  scan text = Ok {| passed := true; issues := [] |}
  /\ main text = Ok {| stdout := ok_message ++ [LF]; status := 0 |}.
Proof.
  intros H. rewrite count_backtick in H.
  pose proof (lines_markers_bound (splitlines text) 0) as Hb.
  rewrite inline_markers_lines, H in Hb.
  pose proof (escape_occurrences_markers text) as He. rewrite H in He.
  fold (Spec.outside_fence_inline_count (splitlines text)) in Hb.
  assert (Hs : scan text = Ok {| passed := true; issues := [] |}).
  { apply scan_no_issue.
    - replace (Spec.fence_marker_lines (splitlines text)) with 0 by lia.
      reflexivity.
    - lia.
    - replace (Spec.outside_fence_inline_count (splitlines text)) with 0
        by lia.
      reflexivity. }
  split; [exact Hs|]. rewrite (main_of_scan _ _ Hs). reflexivity.
Qed.

Lemma no_backtick_passes_witness :
  main (lit "# Title" ++ [CR; LF] ++ lit "~~~" ++ [LF] ++ lit "a \ b")
  = Ok {| stdout := ok_message ++ [LF]; status := 0 |}.
Proof.
  apply (no_backtick_passes
           (lit "# Title" ++ [CR; LF] ++ lit "~~~" ++ [LF] ++ lit "a \ b")).
  reflexivity.
Defined.

(** X6.  The lines the loops walk hold no line boundary, and put end to
    end they are the text with its line boundaries removed: no other
    character is lost, added or moved. *)
Theorem splitlines_keeps_text (text : str) :
  concat (splitlines text) = filter (fun c => negb (is_linebreak c)) text
  /\ Forall (fun l => one_line l = true) (splitlines text).
Proof.
  unfold splitlines. split.
  - apply (splitlines_from_concat text []).
  - apply splitlines_from_one_line. reflexivity.
Qed.

(** X7.  Whitespace before a line changes nothing of what either loop
    does with the line: an indented fence-marker line is a fence-marker
    line with the same token, and an indented line has the same number
    of inline markers. *)
Theorem leading_whitespace_ignored
    (ws line : str) (fv : fence_vars) (iv : inline_vars) :
  forallb isspace ws = true ->
  fence_body fv (ws ++ line) = fence_body fv line
  /\ inline_body iv (ws ++ line) = inline_body iv line.
Proof.
  intros H. unfold fence_body, inline_body.
  rewrite (lstrip_whitespace _ _ H), !count_backtick, inline_markers_app.
  rewrite (inline_markers_whitespace _ H). split; reflexivity.
Qed.

Lemma leading_whitespace_ignored_witness :
  fence_body {| fence_count := 0; fence_stack := [] |}
    ([9%N; 160%N; 32%N] ++ lit "```sh")
  = Ok {| fence_count := 1; fence_stack := [lit "```sh"] |}.
Proof.
  refine (eq_trans
            (proj1 (leading_whitespace_ignored
                      [9%N; 160%N; 32%N] (lit "```sh")
                      {| fence_count := 0; fence_stack := [] |}
                      {| outside_backticks := 0; in_fence := false;
                         fence_curr := None |} eq_refl)) _).
  reflexivity.
Defined.

(** X8.  A line feed added at the end of the text changes neither the
    verdict nor the output. *)
Theorem trailing_newline_irrelevant (text : str) :
  scan (text ++ [LF]) = scan text /\ main (text ++ [LF]) = main text.
Proof.
  assert (Hs : scan (text ++ [LF]) = scan text).
  { rewrite !scan_verdict, !escaped_occurrences, escape_occurrences_lf.
    destruct (quantities_lf text) as [-> ->]. reflexivity. }
  split; [exact Hs|]. unfold main. rewrite Hs. reflexivity.
Qed.

(** X9.  The counters are bounded by the backticks of the text: three
    for every fence-marker line plus the inline markers counted outside
    fenced regions are at most the backticks of the text, and so is the
    number of escaped sequences. *)
Theorem counters_bounded_by_backticks (text : str) :
  exists fv iv,
    fence_pass (splitlines text) = Ok fv
    /\ inline_pass (splitlines text) = Ok iv
    /\ 3 * fence_count fv + outside_backticks iv <= count text [backtick]
    /\ escaped text <= count text [backtick].
Proof.
  unfold fence_pass, inline_pass.
  destruct (fence_loop (splitlines text)
              {| fence_count := 0; fence_stack := [] |}) as (fv & Hf & Cf).
  destruct (inline_loop (splitlines text)
              {| outside_backticks := 0; in_fence := false;
                 fence_curr := None |} 0 eq_refl) as (iv & Hi & Co & _).
  exists fv, iv. split; [exact Hf|]. split; [exact Hi|].
  cbn [fence_count outside_backticks Nat.add] in Cf, Co.
  rewrite Cf, Co, count_backtick, escaped_occurrences.
  rewrite <- inline_markers_lines at 1.
  split; [apply lines_markers_bound | apply escape_occurrences_markers].
Qed.

(** ** Two documents, one after the other *)

Lemma splitlines_from_joined (t cur t2 : str) :
  splitlines_from cur (t ++ LF :: t2)
  = splitlines_from cur (t ++ [LF]) ++ splitlines_from [] t2.
Proof.
  revert cur; induction t as [|c t IH]; intros cur; [reflexivity|].
  cbn [app splitlines_from]. destruct (is_linebreak c) eqn:B; [|apply IH].
  cbn [app]. f_equal.
  destruct (c =? CR)%N; [|apply (IH [])].
  destruct t as [|d t']; [reflexivity|].
  cbn [app]. destruct (d =? LF)%N eqn:D; [|apply (IH [])].
  apply N.eqb_eq in D. subst d.
  pose proof (IH []) as H. cbn in H. injection H as H. exact H.
Qed.

Lemma escape_occurrences_joined (t t2 : str) :
  Spec.escape_occurrences (t ++ LF :: t2)
  = Spec.escape_occurrences t + Spec.escape_occurrences t2.
Proof.
  assert (H0 : Spec.escape_occurrences (LF :: t2) = Spec.escape_occurrences t2)
    by (destruct t2; reflexivity).
  enough (H : forall t a, Spec.escape_occurrences (a :: t ++ LF :: t2)
                          = Spec.escape_occurrences (a :: t)
                            + Spec.escape_occurrences t2).
  { destruct t as [|a t]; [exact H0 | apply H]. }
  clear t. induction t as [|b t IH]; intros a.
  - change (Spec.escape_occurrences (a :: [] ++ LF :: t2))
      with ((if (a =? backslash)%N && (LF =? backtick)%N then 1 else 0)
            + Spec.escape_occurrences (LF :: t2)).
    rewrite andb_false_r, H0. reflexivity.
  - change (Spec.escape_occurrences (a :: (b :: t) ++ LF :: t2))
      with ((if (a =? backslash)%N && (b =? backtick)%N then 1 else 0)
            + Spec.escape_occurrences (b :: t ++ LF :: t2)).
    change (Spec.escape_occurrences (a :: b :: t))
      with ((if (a =? backslash)%N && (b =? backtick)%N then 1 else 0)
            + Spec.escape_occurrences (b :: t)).
    rewrite IH. lia.
Qed.

Lemma outside_inline_parity (ls : list str) (s1 s2 : nat) :
  Nat.even s1 = Nat.even s2 ->
  Spec.outside_inline_from s1 ls = Spec.outside_inline_from s2 ls.
Proof.
  revert s1 s2; induction ls as [|l ls IH]; intros s1 s2 H; [reflexivity|].
  cbn [Spec.outside_inline_from]. destruct (Spec.is_fence_line l).
  - apply IH, even_succ_eq, H.
  - rewrite H, (IH s1 s2 H). reflexivity.
Qed.

Lemma errs_nil (f e o : nat) :
  errs f e o = [] <-> Nat.even f = true /\ e = 0 /\ Nat.even o = true.
Proof.
  rewrite errs_cases, <- !Nat.negb_even.
  destruct (Nat.even f), (Nat.ltb_spec 0 e), (Nat.even o); cbn;
    split; try discriminate; try (intros (? & ? & ?); try discriminate; lia);
    intros _; repeat split; lia.
Qed.

Lemma scan_passes_iff (text : str) :
  scan text = Ok {| passed := true; issues := [] |}
  <-> Nat.even (Spec.fence_marker_lines (splitlines text)) = true
      /\ Spec.escape_occurrences text = 0
      /\ Nat.even (Spec.outside_fence_inline_count (splitlines text)) = true.
Proof.
  split.
  - rewrite scan_verdict, escaped_occurrences. intros H.
    apply errs_nil. injection H as _ H. exact H.
  - intros (Hf & He & Ho). apply scan_no_issue; assumption.
Qed.

(** X10.  Two documents that pass, put one after the other with a line
    feed between them, make a document that passes. *)
Theorem passing_documents_concatenate (t1 t2 : str) :
  scan t1 = Ok {| passed := true; issues := [] |} ->
  scan t2 = Ok {| passed := true; issues := [] |} ->
  scan (t1 ++ LF :: t2) = Ok {| passed := true; issues := [] |}.
Proof.
  intros H1 H2.
  apply scan_passes_iff in H1. destruct H1 as (Hf1 & He1 & Ho1).
  apply scan_passes_iff in H2. destruct H2 as (Hf2 & He2 & Ho2).
  destruct (quantities_lf t1) as [Qf Qo].
  rewrite <- Qf in Hf1. rewrite <- Qo in Ho1.
  apply scan_passes_iff.
  unfold splitlines, Spec.outside_fence_inline_count in *.
  rewrite splitlines_from_joined, fence_marker_lines_app, outside_inline_app.
  rewrite escape_occurrences_joined, He1, He2.
  rewrite (outside_inline_parity (splitlines_from [] t2)
             (0 + Spec.fence_marker_lines (splitlines_from [] (t1 ++ [LF]))) 0)
    by exact Hf1.
  rewrite !Nat.even_add, Hf1, Hf2, Ho1, Ho2. auto.
Qed.

Lemma passing_documents_concatenate_witness :
  scan ((lit "```" ++ [LF] ++ lit "a`" ++ [LF] ++ lit "```")
        ++ LF :: lit "use `x`")
  = Ok {| passed := true; issues := [] |}.
Proof.
  apply (passing_documents_concatenate
           (lit "```" ++ [LF] ++ lit "a`" ++ [LF] ++ lit "```")
           (lit "use `x`")); reflexivity.
Defined.
